(** * QAMImageGenerator: geometry, sizing and curve smoothing

    A shallow embedding of [src/qam_image_generator.js] and the proofs of
    the properties its specification states about it.

    Number model.  The generator is embedded twice.

    In the exact model (module [QAMImageGenerator]) a JavaScript number
    is an exact rational ([Q]): no rounding, no overflow, no NaN, no
    signed zero.  The two infinities only occur in the source as the
    initial values of the running minimum and maximum of [_spanX]; they
    are modelled by the type [Js.Bound] and proved never to leave that
    loop.  Division is [Qdiv], so [x / 0] is [0] here where JavaScript
    yields an infinity or NaN: statements that depend on the value of a
    quotient carry the hypothesis that its denominator is positive.  Grid
    size and symbol indices are integers ([Z]), as the source documents
    them; a statement about the decoded cell of an arbitrary index bounds
    the index by 2^53, where [n - 1] is exact in doubles.  This model
    carries the structural properties: what is drawn, in which order, and
    the relations between coordinates that rounding preserves.

    In the binary64 model (module [Double]) a number is an IEEE 754
    double ([PrimFloat]) and every operation rounds as the machine does.
    It covers the sizing step, whose result is an integer number of
    pixels and can therefore differ by one between the two models.

    State.  The generator object is the record [t]; every method is a
    function from the generator (and the host's global object, where the
    method reads it) to the updated generator.  The 2D context is
    modelled by the list of calls issued on it, oldest first. *)

From Stdlib Require Import ZArith QArith Qround Qminmax Lqa Lia List String Bool.
From Stdlib Require Import Floats.
Import ListNotations.

Open Scope Q_scope.

(** ** JavaScript primitives used by the source *)

Module Js.

(** Outcome of an operation that may throw. *)
Inductive result (A : Type) : Type :=
| Ok (a : A)
| Throw (e : string).
Arguments Ok {A} a.
Arguments Throw {A} e.

Definition bind {A B} (r : result A) (k : A -> result B) : result B :=
  match r with
  | Ok a => k a
  | Throw e => Throw e
  end.

(** [ToInt32]: reduce modulo 2^32 into [-2^31, 2^31). *)
Definition ToInt32 (z : Z) : Z :=
  let m := (z mod 2 ^ 32)%Z in
  if (2 ^ 31 <=? m)%Z then (m - 2 ^ 32)%Z else m.

(** [a | b] on integer-valued numbers. *)
Definition bitor (a b : Z) : Z :=
  ToInt32 (Z.lor (ToInt32 a) (ToInt32 b)).

(** [a % b] on integers: the remainder has the sign of the dividend. *)
Definition rem (a b : Z) : Z := Z.rem a b.

(** [x < y] and [x > y] on finite numbers. *)
Definition lt (x y : Q) : bool :=
  match x ?= y with Lt => true | _ => false end.
Definition gt (x y : Q) : bool := lt y x.

(** A running extremum: a finite number or one of the two infinities. *)
Inductive Bound : Type :=
| NegInfinity
| Finite (q : Q)
| Infinity.

(** [x < b] and [x > b] for a finite [x]. *)
Definition lt_bound (x : Q) (b : Bound) : bool :=
  match b with
  | NegInfinity => false
  | Finite m => lt x m
  | Infinity => true
  end.
Definition gt_bound (x : Q) (b : Bound) : bool :=
  match b with
  | NegInfinity => true
  | Finite m => gt x m
  | Infinity => false
  end.

(** The finite number held by a bound.  The infinities have no image in
    [Q]; [_spanX_loop_finite] below shows that the source never reads
    one. *)
Definition number (b : Bound) : Q :=
  match b with
  | Finite q => q
  | _ => 0
  end.

(** [v || d] for an optional number: [undefined] and [0] are falsy. *)
Definition or_default (v : option Q) (d : Q) : Q :=
  match v with
  | Some q => if Qeq_bool q 0 then d else q
  | None => d
  end.

(** [for (let i = lo; i < hi; i++)]: the values taken by [i]. *)
Definition range (lo hi : nat) : list nat := seq lo (hi - lo).

End Js.

Import Js.

Notation "x <- r ;; k" := (Js.bind r (fun x => k))
  (at level 61, r at next level, right associativity).

(** ** The host: global object, canvas and 2D context *)

Record Global : Type := {
  devicePixelRatio : option Q   (* [None]: the host reports nothing *)
}.

(** A CSS length in pixels, the value of [canvas.style.width]. *)
Inductive Css : Type :=
| px (q : Q).

Module Canvas.
Record t : Type := mk {
  style_width : option Css;
  style_height : option Css;
  width : Z;
  height : Z
}.
End Canvas.

(** Calls on the 2D context. *)
Inductive Cmd : Type :=
| setTransform (a b c d e f : Q)
| clearRect (x y w h : Q)
| set_fillStyle (s : string)
| fillRect (x y w h : Q)
| save
| set_strokeStyle (s : string)
| set_lineWidth (w : Q)
| set_lineJoin (s : string)
| set_lineCap (s : string)
| beginPath
| moveTo (x y : Q)
| quadraticCurveTo (cpx cpy x y : Q)
| stroke
| restore.

(** ** The generator *)

Module QAMImageGenerator.

Record Options : Type := {
  N : Z;
  PAD : Q;
  shift : Q;
  lineWidth : Q;
  lineColor : string;
  H_FIXED : Q;
  PIXEL_MARGIN : Q
}.

(** A partial options object: the fields the caller supplies. *)
Record PartialOptions : Type := {
  N' : option Z;
  PAD' : option Q;
  shift' : option Q;
  lineWidth' : option Q;
  lineColor' : option string;
  H_FIXED' : option Q;
  PIXEL_MARGIN' : option Q
}.

Definition no_options : PartialOptions :=
  {| N' := None; PAD' := None; shift' := None; lineWidth' := None;
     lineColor' := None; H_FIXED' := None; PIXEL_MARGIN' := None |}.

Definition assign_field {A} (target : A) (source : option A) : A :=
  match source with
  | Some v => v
  | None => target
  end.

(** [Object.assign(target, source)]. *)
Definition Object_assign (target : Options) (source : PartialOptions)
  : Options :=
  {| N := assign_field (N target) (N' source);
     PAD := assign_field (PAD target) (PAD' source);
     shift := assign_field (shift target) (shift' source);
     lineWidth := assign_field (lineWidth target) (lineWidth' source);
     lineColor := assign_field (lineColor target) (lineColor' source);
     H_FIXED := assign_field (H_FIXED target) (H_FIXED' source);
     PIXEL_MARGIN :=
       assign_field (PIXEL_MARGIN target) (PIXEL_MARGIN' source) |}.

Definition defaults : Options :=
  {| N := 4;
     PAD := 2;
     shift := 1;
     lineWidth := 2;
     lineColor := "#00e5ff";
     H_FIXED := 256;
     PIXEL_MARGIN := 24 |}.

Module State.
Record t : Type := mk {
  width : Q;
  height : Q
}.
End State.

Record t : Type := {
  canvas : Canvas.t;
  ctx : list Cmd;
  options : Options;
  state : State.t;
  dpr : Q
}.

Definition set_dpr (g : t) (v : Q) : t :=
  {| canvas := canvas g; ctx := ctx g; options := options g;
     state := state g; dpr := v |}.
Definition set_state (g : t) (s : State.t) : t :=
  {| canvas := canvas g; ctx := ctx g; options := options g;
     state := s; dpr := dpr g |}.
Definition set_canvas (g : t) (c : Canvas.t) : t :=
  {| canvas := c; ctx := ctx g; options := options g;
     state := state g; dpr := dpr g |}.
Definition set_options (g : t) (o : Options) : t :=
  {| canvas := canvas g; ctx := ctx g; options := o;
     state := state g; dpr := dpr g |}.
(** Issue one call on the context. *)
Definition call (g : t) (c : Cmd) : t :=
  {| canvas := canvas g; ctx := ctx g ++ [c]; options := options g;
     state := state g; dpr := dpr g |}.

(** [_syncDPR()] *)
Definition _syncDPR (global : Global) (g : t) : t :=
  set_dpr g (Qmax 1 (or_default (devicePixelRatio global) 1)).

(** [constructor(canvas, options = {})] *)
Definition constructor (global : Global) (canvas : option Canvas.t)
    (options : PartialOptions) : result t :=
  match canvas with
  | None => Throw "canvas is required"
  | Some c =>
      let o := Object_assign defaults options in
      Ok (_syncDPR global
            {| canvas := c;
               ctx := [];
               options := o;
               state := State.mk 256 (H_FIXED o);
               dpr := 0 |})
  end.

(** [_clamp(v, a, b)] *)
Definition _clamp (v a b : Q) : Q := Qmin (Qmax v a) b.

Record RowCol : Type := {
  row : Z;
  col : Z
}.

(** [_rc(n)] *)
Definition _rc (g : t) (n : Z) : RowCol :=
  let N := N (options g) in
  let z := bitor (n - 1) 0 in
  {| row := Qfloor (inject_Z z / inject_Z N); col := rem z N |}.

Record Span : Type := {
  min : Q;
  max : Q
}.

(** The body of the loop of [_spanX], from index [i] on. *)
Fixpoint _spanX_loop (g : t) (i : nat) (seq : list Z)
    (minX maxX : Bound) : Bound * Bound :=
  match seq with
  | [] => (minX, maxX)
  | seq_i :: rest =>
      let col := col (_rc g seq_i) in
      let s := (inject_Z (Z.of_nat i + 1) / 4) * shift (options g) in
      let x := (inject_Z col + (1 # 2)) + s in
      let minX := if lt_bound x minX then Finite x else minX in
      let maxX := if gt_bound x maxX then Finite x else maxX in
      _spanX_loop g (S i) rest minX maxX
  end.

(** [_spanX(seq)]; [None] is an absent ([undefined]) sequence. *)
Definition _spanX (g : t) (seq : option (list Z)) : Span :=
  match seq with
  | None => {| min := 1 # 2; max := 1 # 2 |}
  | Some l =>
      if (List.length l =? 0)%nat then {| min := 1 # 2; max := 1 # 2 |}
      else
        let '(minX, maxX) := _spanX_loop g 0 l Infinity NegInfinity in
        {| min := number minX; max := number maxX |}
  end.

(** [_chooseCanvasSize(seq)] *)
Definition _chooseCanvasSize (g : t) (seq : option (list Z)) : t :=
  let o := options g in
  let H := H_FIXED o in
  let step :=
    (H - 2 * PIXEL_MARGIN o) / (inject_Z (N o) + PAD o * 2) in
  let sp := _spanX g seq in
  let symSpanX := Qmax (1 # 1000000) ((max sp - min sp) + PAD o * 2) in
  let W := 2 * PIXEL_MARGIN o + step * symSpanX in
  set_state g (State.mk (inject_Z (Qceiling W)) H).

(** [_setupCanvas()] *)
Definition _setupCanvas (global : Global) (g : t) : t :=
  let width := State.width (state g) in
  let height := State.height (state g) in
  let g := _syncDPR global g in
  let g :=
    set_canvas g
      (Canvas.mk (Some (px width)) (Some (px height))
         (Qfloor (width * dpr g)) (Qfloor (height * dpr g))) in
  call g (setTransform (dpr g) 0 0 (dpr g) 0 0).

Record Point : Type := {
  x : Q;
  y : Q
}.

(** First loop of [_drawPolyline]: the points pushed from index [i] on. *)
Fixpoint _drawPolyline_pts (g : t) (step : Q) (sp : Span) (i : nat)
    (seq : list Z) : list Point :=
  match seq with
  | [] => []
  | seq_i :: rest =>
      let o := options g in
      let rc := _rc g seq_i in
      let s := (inject_Z (Z.of_nat i + 1) / 4) * shift o in
      let xSym := (inject_Z (col rc) + (1 # 2)) + s in
      let x := PIXEL_MARGIN o + step * ((xSym - min sp) + PAD o) in
      let y :=
        PIXEL_MARGIN o + step * (PAD o + inject_Z (row rc) + (1 # 2)) in
      {| x := x; y := y |} :: _drawPolyline_pts g step sp (S i) rest
  end.

(** [pts[i]]; reading a field of a missing element throws. *)
Definition at_index (pts : list Point) (i : nat) : result Point :=
  match nth_error pts i with
  | Some p => Ok p
  | None => Throw "TypeError"
  end.

(** Second loop of [_drawPolyline], over the given values of [i]. *)
Fixpoint _drawPolyline_curve (pts : list Point) (idx : list nat) (g : t)
  : result t :=
  match idx with
  | [] => Ok g
  | i :: rest =>
      p <- at_index pts i ;;
      q <- at_index pts (i + 1) ;;
      let xc := (x p + x q) / 2 in
      let yc := (y p + y q) / 2 in
      _drawPolyline_curve pts rest
        (call g (quadraticCurveTo (x p) (y p) xc yc))
  end.

(** [_drawPolyline(seq)] *)
Definition _drawPolyline (g : t) (seq : option (list Z)) : result t :=
  let o := options g in
  let step :=
    (State.height (state g) - 2 * PIXEL_MARGIN o)
    / (inject_Z (N o) + PAD o * 2) in
  let sp := _spanX g seq in
  let w := State.width (state g) in
  let h := State.height (state g) in
  let g := call g (clearRect 0 0 w h) in
  let g := call g (set_fillStyle "#0b0f1a") in
  let g := call g (fillRect 0 0 w h) in
  match seq with
  | None => Ok g
  | Some l =>
      if (List.length l <? 2)%nat then Ok g
      else
        let pts := _drawPolyline_pts g step sp 0 l in
        let g := call g save in
        let g := call g (set_strokeStyle (lineColor o)) in
        let g := call g (set_lineWidth (lineWidth o)) in
        let g := call g (set_lineJoin "round") in
        let g := call g (set_lineCap "round") in
        let g := call g beginPath in
        p0 <- at_index pts 0 ;;
        let g := call g (moveTo (x p0) (y p0)) in
        g <- _drawPolyline_curve pts (range 1 (List.length pts - 2)) g ;;
        c <- at_index pts (List.length pts - 2) ;;
        e <- at_index pts (List.length pts - 1) ;;
        let g := call g (quadraticCurveTo (x c) (y c) (x e) (y e)) in
        let g := call g stroke in
        Ok (call g restore)
  end.

(** [setOptions(opts = {})] *)
Definition setOptions (g : t) (opts : PartialOptions) : t :=
  set_options g (Object_assign (options g) opts).

(** [render(seq)] *)
Definition render (global : Global) (g : t) (seq : option (list Z))
  : result t :=
  let g := _chooseCanvasSize g seq in
  let g := _setupCanvas global g in
  _drawPolyline g seq.

End QAMImageGenerator.

Import QAMImageGenerator.

(** ** Fixtures: a blank host canvas and the generator built on it *)

Definition blank_canvas : Canvas.t := Canvas.mk None None 300 150.

Definition no_ratio : Global := {| devicePixelRatio := None |}.

(** The generator that [new QAMImageGenerator(canvas, opts)] yields on a
    blank canvas when the host reports no pixel ratio. *)
Definition generator (opts : PartialOptions) : t :=
  let o := Object_assign defaults opts in
  {| canvas := blank_canvas; ctx := []; options := o;
     state := State.mk 256 (H_FIXED o); dpr := 1 |}.

Definition default_generator : t := generator no_options.

(** The path-building calls among the calls issued on a context. *)
Definition is_path_call (c : Cmd) : bool :=
  match c with
  | beginPath | moveTo _ _ | quadraticCurveTo _ _ _ _ | stroke => true
  | _ => false
  end.

Definition path_calls (log : list Cmd) : list Cmd := filter is_path_call log.

(** Equality of two calls, numbers compared as rationals. *)
Definition Cmd_eqb (c1 c2 : Cmd) : bool :=
  match c1, c2 with
  | setTransform a b c d e f, setTransform a' b' c' d' e' f' =>
      Qeq_bool a a' && Qeq_bool b b' && Qeq_bool c c' && Qeq_bool d d'
      && Qeq_bool e e' && Qeq_bool f f'
  | clearRect x y w h, clearRect x' y' w' h'
  | fillRect x y w h, fillRect x' y' w' h'
  | quadraticCurveTo x y w h, quadraticCurveTo x' y' w' h' =>
      Qeq_bool x x' && Qeq_bool y y' && Qeq_bool w w' && Qeq_bool h h'
  | set_fillStyle s, set_fillStyle s'
  | set_strokeStyle s, set_strokeStyle s'
  | set_lineJoin s, set_lineJoin s'
  | set_lineCap s, set_lineCap s' => String.eqb s s'
  | set_lineWidth w, set_lineWidth w' => Qeq_bool w w'
  | moveTo x y, moveTo x' y' => Qeq_bool x x' && Qeq_bool y y'
  | save, save | beginPath, beginPath | stroke, stroke
  | restore, restore => true
  | _, _ => false
  end.

(** The horizontal position, in grid units, that both loops of the source
    compute for the symbol [n] at 0-based index [i]. *)
Definition xSym_at (g : t) (i : nat) (n : Z) : Q :=
  (inject_Z (col (_rc g n)) + (1 # 2))
  + (inject_Z (Z.of_nat i + 1) / 4) * shift (options g).

Fixpoint xSyms (g : t) (i : nat) (seq : list Z) : list Q :=
  match seq with
  | [] => []
  | n :: rest => xSym_at g i n :: xSyms g (S i) rest
  end.

(** The scale [step] that [_chooseCanvasSize] and [_drawPolyline] compute
    from a height [h]. *)
Definition step_of (o : Options) (h : Q) : Q :=
  (h - 2 * PIXEL_MARGIN o) / (inject_Z (N o) + PAD o * 2).

(** The points [_drawPolyline] maps a sequence to. *)
Definition mapped_points (g : t) (l : list Z) : list Point :=
  _drawPolyline_pts g (step_of (options g) (State.height (state g)))
    (_spanX g (Some l)) 0 l.

(** Midpoint smoothing segment for [pts[i]], [pts[i+1]]; and the closing
    segment. *)
Definition segment (p q : Point) : Cmd :=
  quadraticCurveTo (x p) (y p) ((x p + x q) / 2) ((y p + y q) / 2).

Definition closing (p q : Point) : Cmd :=
  quadraticCurveTo (x p) (y p) (x q) (y q).


(** A partial options object that sets [PAD] only. *)
Definition only_PAD (p : Q) : PartialOptions :=
  {| N' := None; PAD' := Some p; shift' := None; lineWidth' := None;
     lineColor' := None; H_FIXED' := None; PIXEL_MARGIN' := None |}.

(** The logical width the sizing step computes. *)
Definition chosen_width (g : t) (seq : option (list Z)) : Q :=
  State.width (state (_chooseCanvasSize g seq)).



(** The point the first loop of [_drawPolyline] pushes for the symbol [n]
    at 0-based index [i]. *)
Definition point_at (g : t) (step : Q) (sp : Span) (i : nat) (n : Z)
  : Point :=
  let o := options g in
  {| x := PIXEL_MARGIN o + step * ((xSym_at g i n - min sp) + PAD o);
     y := PIXEL_MARGIN o
          + step * (PAD o + inject_Z (row (_rc g n)) + (1 # 2)) |}.

(** The generator after the calls [cs] were issued on its context. *)
Definition calls (g : t) (cs : list Cmd) : t :=
  {| canvas := canvas g; ctx := ctx g ++ cs; options := options g;
     state := state g; dpr := dpr g |}.

(** The calls that clear and fill the background. *)
Definition background (g : t) : list Cmd :=
  let w := State.width (state g) in
  let h := State.height (state g) in
  [clearRect 0 0 w h; set_fillStyle "#0b0f1a"; fillRect 0 0 w h].

(** The calls that set the stroke style and open the path. *)
Definition pen (g : t) : list Cmd :=
  [save; set_strokeStyle (lineColor (options g));
   set_lineWidth (lineWidth (options g));
   set_lineJoin "round"; set_lineCap "round"; beginPath].

(** The generator as [render] hands it to [_drawPolyline]: sized and with
    the canvas set up. *)
Definition prepared (global : Global) (g : t) (seq : option (list Z)) : t :=
  _setupCanvas global (_chooseCanvasSize g seq).

(** The sequence 1, 2, ..., 20. *)
Definition one_to_twenty : list Z := map Z.of_nat (seq 1 20).

(** ** The sizing step over binary64

    The width [_chooseCanvasSize] stores is the ceiling of a sum of
    rounded products and quotients, so it can differ by a pixel from the
    ceiling of the exact value.  The methods that decide it are therefore
    also given over the doubles themselves ([PrimFloat], IEEE 754
    binary64, round to nearest even): here NaN, the infinities and the
    signed zeros are the machine's. *)

Module Double.

Local Open Scope float_scope.

(** The rational a finite double stands for ([0] for NaN and the
    infinities, which stand for none). *)
Definition to_Q (x : float) : Q :=
  match Prim2SF x with
  | S754_finite s m e =>
      let v := match e with
               | Zneg k => Qmake (Zpos m) (2 ^ k)
               | _ => inject_Z (Zpos m * 2 ^ e)
               end in
      if s then Qopp v else v
  | _ => 0%Q
  end.

Definition is_finite (x : float) : bool :=
  match Prim2SF x with
  | S754_zero _ | S754_finite _ _ _ => true
  | _ => false
  end.

Definition is_negative (x : float) : bool :=
  match Prim2SF x with
  | S754_zero s | S754_infinity s | S754_finite s _ _ => s
  | S754_nan => false
  end.

(** The double nearest to an integer (the integer itself below 2^53). *)
Definition of_Z (z : Z) : float :=
  SF2Prim (binary_normalize prec emax z 0 false).

(** The integer part of a finite double, rounded towards zero. *)
Definition truncate (x : float) : Z :=
  match Prim2SF x with
  | S754_finite s m e =>
      let a := match e with
               | Zneg k => (Zpos m / 2 ^ Zpos k)%Z
               | _ => (Zpos m * 2 ^ e)%Z
               end in
      if s then (- a)%Z else a
  | _ => 0%Z
  end.

(** [Math.floor] and [Math.ceil]: a double with a non-negative exponent,
    a zero, an infinity or NaN is returned as it is. *)
Definition Math_floor (x : float) : float :=
  match Prim2SF x with
  | S754_finite _ _ (Zneg _) => of_Z (Qfloor (to_Q x))
  | _ => x
  end.

Definition Math_ceil (x : float) : float :=
  match Prim2SF x with
  | S754_finite s _ (Zneg _) =>
      let z := Qceiling (to_Q x) in
      if (z =? 0)%Z && s then neg_zero else of_Z z
  | _ => x
  end.

(** [Math.max] of two numbers. *)
Definition Math_max (a b : float) : float :=
  if is_nan a || is_nan b then nan
  else if a <? b then b
  else if b <? a then a
  else if is_negative a then b else a.

(** [ToInt32] and [a | b]. *)
Definition ToInt32 (x : float) : Z :=
  if is_finite x then Js.ToInt32 (truncate x) else 0%Z.

Definition bitor (a b : float) : float :=
  of_Z (Js.ToInt32 (Z.lor (ToInt32 a) (ToInt32 b))).

(** [a % b]: the exact remainder of the truncated division, with the sign
    of [a]. *)
Definition rem (a b : float) : float :=
  match Prim2SF a, Prim2SF b with
  | S754_nan, _ | _, S754_nan | S754_infinity _, _ | _, S754_zero _ => nan
  | _, S754_infinity _ | S754_zero _, _ => a
  | S754_finite sa ma ea, S754_finite _ mb eb =>
      let e := Z.min ea eb in
      let r := Z.rem (Zpos ma * 2 ^ (ea - e)) (Zpos mb * 2 ^ (eb - e)) in
      SF2Prim (binary_normalize prec emax (if sa then - r else r) e sa)
  end.

Record Options : Type := {
  N : float;
  PAD : float;
  shift : float;
  lineWidth : float;
  lineColor : string;
  H_FIXED : float;
  PIXEL_MARGIN : float
}.

Definition defaults : Options :=
  {| N := 4; PAD := 2; shift := 1; lineWidth := 2;
     lineColor := "#00e5ff"; H_FIXED := 256; PIXEL_MARGIN := 24 |}.

(** [this.state] *)
Record State : Type := {
  width : float;
  height : float
}.

Record RowCol : Type := {
  row : float;
  col : float
}.

(** [_rc(n)] *)
Definition _rc (o : Options) (n : float) : RowCol :=
  let z := bitor (n - 1) 0 in
  {| row := Math_floor (z / N o); col := rem z (N o) |}.

Record Span : Type := {
  min : float;
  max : float
}.

(** The body of the loop of [_spanX], from index [i] on. *)
Fixpoint _spanX_loop (o : Options) (i : nat) (seq : list float)
    (minX maxX : float) : float * float :=
  match seq with
  | [] => (minX, maxX)
  | seq_i :: rest =>
      let col := col (_rc o seq_i) in
      let s := ((of_Z (Z.of_nat i) + 1) / 4) * shift o in
      let x := (col + 0.5) + s in
      let minX := if x <? minX then x else minX in
      let maxX := if maxX <? x then x else maxX in
      _spanX_loop o (S i) rest minX maxX
  end.

(** [_spanX(seq)]; [None] is an absent sequence. *)
Definition _spanX (o : Options) (seq : option (list float)) : Span :=
  match seq with
  | None => {| min := 0.5; max := 0.5 |}
  | Some l =>
      if (List.length l =? 0)%nat then {| min := 0.5; max := 0.5 |}
      else
        let '(minX, maxX) := _spanX_loop o 0 l infinity neg_infinity in
        {| min := minX; max := maxX |}
  end.

(** The double the source writes [1e-6]. *)
Definition lit_1e_6 : float := 0x1.0c6f7a0b5ed8dp-20.

(** [_chooseCanvasSize(seq)]: the render state it stores. *)
Definition _chooseCanvasSize (o : Options) (seq : option (list float))
  : State :=
  let H := H_FIXED o in
  let step := (H - 2 * PIXEL_MARGIN o) / (N o + PAD o * 2) in
  let sp := _spanX o seq in
  let symSpanX := Math_max lit_1e_6 ((max sp - min sp) + PAD o * 2) in
  let W := 2 * PIXEL_MARGIN o + step * symSpanX in
  {| width := Math_ceil W; height := H |}.

(** The sizing step as the specification words it (section 4.2),
    [computeSize(span, config) -> {width, height}]:
    [height = H_FIXED], [step = (height - 2*margin) / (N + 2*PAD)],
    [symSpanX = max(epsilon, (span.max - span.min) + 2*PAD)] and
    [width = ceil(2*margin + step * symSpanX)]. *)
Definition computeSize (span : Span) (config : Options) : State :=
  let height := H_FIXED config in
  let margin := PIXEL_MARGIN config in
  let step := (height - 2 * margin) / (N config + 2 * PAD config) in
  let symSpanX :=
    Math_max lit_1e_6 ((max span - min span) + 2 * PAD config) in
  {| width := Math_ceil (2 * margin + step * symSpanX); height := height |}.

(** The options with [PAD] replaced, and the width the sizing step
    stores. *)
Definition with_PAD (o : Options) (p : float) : Options :=
  {| N := N o; PAD := p; shift := shift o; lineWidth := lineWidth o;
     lineColor := lineColor o; H_FIXED := H_FIXED o;
     PIXEL_MARGIN := PIXEL_MARGIN o |}.

Definition chosen_width (o : Options) (seq : option (list float)) : float :=
  width (_chooseCanvasSize o seq).




End Double.

(** The exact counterparts of double inputs, and the generator of the
    exact model that holds them. *)
Definition exact_options (o : Double.Options) : Options :=
  {| N := Double.truncate (Double.N o);
     PAD := Double.to_Q (Double.PAD o);
     shift := Double.to_Q (Double.shift o);
     lineWidth := Double.to_Q (Double.lineWidth o);
     lineColor := Double.lineColor o;
     H_FIXED := Double.to_Q (Double.H_FIXED o);
     PIXEL_MARGIN := Double.to_Q (Double.PIXEL_MARGIN o) |}.

Definition exact_seq (seq : option (list float)) : option (list Z) :=
  option_map (map Double.truncate) seq.

Definition exact_generator (o : Double.Options) : t :=
  set_options default_generator (exact_options o).

(** Whether the two models decode the integer [index] to the same cell of
    an [n] by [n] grid. *)
Definition rc_models_agree (n index : Z) : bool :=
  let o := Double.with_PAD Double.defaults 2 in
  let o :=
    {| Double.N := Double.of_Z n; Double.PAD := Double.PAD o;
       Double.shift := Double.shift o;
       Double.lineWidth := Double.lineWidth o;
       Double.lineColor := Double.lineColor o;
       Double.H_FIXED := Double.H_FIXED o;
       Double.PIXEL_MARGIN := Double.PIXEL_MARGIN o |} in
  let d := Double._rc o (Double.of_Z index) in
  let e := _rc (exact_generator o) index in
  Double.is_finite (Double.row d) && Double.is_finite (Double.col d)
  && Qeq_bool (Double.to_Q (Double.row d)) (inject_Z (row e))
  && Qeq_bool (Double.to_Q (Double.col d)) (inject_Z (col e)).

(** Grid sizes and indices around the powers of two where the doubles
    change behaviour. *)
Definition edge_sizes : list Z :=
  [1; 2; 3; 4; 7; 9; 1000; 65536; 2 ^ 31 - 1; 2 ^ 31; 2 ^ 32; 2 ^ 32 + 1;
   2 ^ 40 + 3; 2 ^ 52 + 1; 2 ^ 53 - 1; 2 ^ 53]%Z.

Definition edge_indices : list Z :=
  let pos :=
    [1; 2; 3; 16; 17; 2 ^ 31 - 1; 2 ^ 31; 2 ^ 31 + 1; 2 ^ 31 + 2;
     2 ^ 32 - 1; 2 ^ 32; 2 ^ 32 + 1; 2 ^ 33 + 5; 2 ^ 52; 2 ^ 52 + 1;
     2 ^ 53 - 2; 2 ^ 53 - 1; 123456789012345; 98765432109876]%Z in
  (0 :: 2 ^ 53 :: pos ++ map Z.opp pos)%Z.

(** ** Properties of the primitives *)

Section Primitives.

Lemma constructor_default :
  constructor no_ratio (Some blank_canvas) no_options
  = Ok default_generator.
Proof. reflexivity. Qed.

Lemma constructor_generator (opts : PartialOptions) :
  constructor no_ratio (Some blank_canvas) opts = Ok (generator opts).
Proof. reflexivity. Qed.



Lemma ToInt32_range (z : Z) : (- 2 ^ 31 <= ToInt32 z < 2 ^ 31)%Z.
Proof.
  unfold ToInt32.
  pose proof (Z.mod_pos_bound z (2 ^ 32) ltac:(lia)) as B.
  destruct (Z.leb_spec (2 ^ 31) (z mod 2 ^ 32)); lia.
Qed.

Lemma ToInt32_small (z : Z) :
  (- 2 ^ 31 <= z < 2 ^ 31)%Z -> ToInt32 z = z.
Proof.
  intro R. unfold ToInt32.
  destruct (Z.neg_nonneg_cases z) as [Hneg | Hpos].
  - assert (M : (z mod 2 ^ 32 = z + 2 ^ 32)%Z).
    { replace z with (z + 2 ^ 32 + (-1) * 2 ^ 32)%Z at 1 by ring.
      rewrite Z_mod_plus_full. apply Z.mod_small. lia. }
    rewrite M. destruct (Z.leb_spec (2 ^ 31) (z + 2 ^ 32)); lia.
  - rewrite Z.mod_small by lia.
    destruct (Z.leb_spec (2 ^ 31) z); lia.
Qed.

Lemma bitor_0_r (z : Z) : bitor z 0 = ToInt32 z.
Proof.
  unfold bitor. change (ToInt32 0) with 0%Z.
  rewrite Z.lor_0_r. apply ToInt32_small, ToInt32_range.
Qed.

Lemma _rc_unfold (g : t) (n : Z) :
  _rc g n =
  {| row := (ToInt32 (n - 1) / N (options g))%Z;
     col := Z.rem (ToInt32 (n - 1)) (N (options g)) |}.
Proof.
  unfold _rc, Js.rem. rewrite bitor_0_r, <- Zdiv_Qdiv. reflexivity.
Qed.

End Primitives.

(** ** The span loop *)

Section SpanLoop.

Variable g : t.

Lemma xSyms_length (l : list Z) (i : nat) :
  List.length (xSyms g i l) = List.length l.
Proof.
  revert i. induction l as [| n rest IH]; intro i; simpl;
    [reflexivity | now rewrite IH].
Qed.



Lemma _spanX_loop_cons (i : nat) (n : Z) (rest : list Z)
    (minX maxX : Bound) :
  _spanX_loop g i (n :: rest) minX maxX =
  _spanX_loop g (S i) rest
    (if lt_bound (xSym_at g i n) minX then Finite (xSym_at g i n)
     else minX)
    (if gt_bound (xSym_at g i n) maxX then Finite (xSym_at g i n)
     else maxX).
Proof. reflexivity. Qed.





Lemma _spanX_empty (seq : option (list Z)) :
  seq = None \/ seq = Some [] ->
  _spanX g seq = {| min := 1 # 2; max := 1 # 2 |}.
Proof. intros [-> | ->]; reflexivity. Qed.

End SpanLoop.

(** ** What the geometry reads from the generator *)

Section Reads.

Variables g1 g2 : t.
Hypothesis same_N : N (options g1) = N (options g2).
Hypothesis same_shift : shift (options g1) = shift (options g2).

Lemma _rc_reads (n : Z) : _rc g1 n = _rc g2 n.
Proof. unfold _rc. now rewrite same_N. Qed.

Lemma xSym_at_reads (i : nat) (n : Z) : xSym_at g1 i n = xSym_at g2 i n.
Proof. unfold xSym_at. now rewrite _rc_reads, same_shift. Qed.

Lemma _spanX_loop_reads (l : list Z) :
  forall i minX maxX,
    _spanX_loop g1 i l minX maxX = _spanX_loop g2 i l minX maxX.
Proof.
  induction l as [| n rest IH]; intros i minX maxX; [reflexivity |].
  rewrite !_spanX_loop_cons, xSym_at_reads. apply IH.
Qed.

Lemma _spanX_reads (seq : option (list Z)) : _spanX g1 seq = _spanX g2 seq.
Proof.
  destruct seq as [l |]; [| reflexivity].
  unfold _spanX. now rewrite _spanX_loop_reads.
Qed.

Lemma xSyms_reads (l : list Z) :
  forall i, xSyms g1 i l = xSyms g2 i l.
Proof.
  induction l as [| n rest IH]; intro i; [reflexivity |].
  cbn [xSyms]. now rewrite xSym_at_reads, IH.
Qed.

End Reads.

(** ** The two loops of [_drawPolyline] *)

Section Drawing.

Lemma _drawPolyline_pts_cons (g : t) (step : Q) (sp : Span) (i : nat)
    (n : Z) (rest : list Z) :
  _drawPolyline_pts g step sp i (n :: rest) =
  point_at g step sp i n :: _drawPolyline_pts g step sp (S i) rest.
Proof. reflexivity. Qed.

Lemma _drawPolyline_pts_reads (g1 g2 : t) (step : Q) (sp : Span)
    (l : list Z) :
  options g1 = options g2 ->
  forall i,
    _drawPolyline_pts g1 step sp i l = _drawPolyline_pts g2 step sp i l.
Proof.
  intro E. induction l as [| n rest IH]; intro i; [reflexivity |].
  rewrite !_drawPolyline_pts_cons, IH. f_equal.
  unfold point_at. rewrite E.
  rewrite (xSym_at_reads g1 g2), (_rc_reads g1 g2); now rewrite ?E.
Qed.

Lemma _drawPolyline_pts_length (g : t) (step : Q) (sp : Span)
    (l : list Z) :
  forall i, List.length (_drawPolyline_pts g step sp i l) = List.length l.
Proof.
  induction l as [| n rest IH]; intro i; [reflexivity |].
  rewrite _drawPolyline_pts_cons. simpl. now rewrite IH.
Qed.



Lemma at_index_Some (pts : list Point) (i : nat) (p : Point) :
  nth_error pts i = Some p -> at_index pts i = Ok p.
Proof. unfold at_index. now intros ->. Qed.

Lemma nth_error_lt {A} (l : list A) (i : nat) :
  (i < List.length l)%nat -> exists a, nth_error l i = Some a.
Proof.
  intro H. destruct (nth_error l i) as [a |] eqn:E; [now exists a |].
  apply nth_error_None in E. lia.
Qed.

Lemma calls_calls (g : t) (cs ds : list Cmd) :
  calls (calls g cs) ds = calls g (cs ++ ds).
Proof. unfold calls. simpl. now rewrite app_assoc. Qed.

Lemma call_calls (g : t) (c : Cmd) : call g c = calls g [c].
Proof. reflexivity. Qed.

(** The smoothing loop never reads outside [pts] when every index [i] it
    visits has [i + 1] inside, and issues one midpoint segment per
    index. *)
Lemma _drawPolyline_curve_ok (pts : list Point) (idx : list nat) :
  (forall i, In i idx -> (i + 1 < List.length pts)%nat) ->
  forall g,
  exists segs,
    _drawPolyline_curve pts idx g = Ok (calls g segs)
    /\ Forall2
         (fun i c =>
            exists p q, nth_error pts i = Some p
                        /\ nth_error pts (i + 1) = Some q
                        /\ c = segment p q)
         idx segs.
Proof.
  induction idx as [| i rest IH]; intros Hin g.
  - exists []. split; [| constructor].
    simpl. unfold calls. rewrite app_nil_r. now destruct g.
  - assert (Hi : (i + 1 < List.length pts)%nat) by (apply Hin; now left).
    destruct (nth_error_lt pts i ltac:(lia)) as (p & Hp).
    destruct (nth_error_lt pts (i + 1) Hi) as (q & Hq).
    destruct (IH (fun j Hj => Hin j (or_intror Hj))
                (call g (segment p q))) as (segs & Hrun & Hall).
    exists (segment p q :: segs). split.
    + cbn [_drawPolyline_curve].
      rewrite (at_index_Some _ _ _ Hp), (at_index_Some _ _ _ Hq).
      cbn [Js.bind]. unfold segment in Hrun |- *. rewrite Hrun.
      now rewrite call_calls, calls_calls.
    + constructor; [| exact Hall]. now exists p, q.
Qed.

Lemma range_In (lo hi i : nat) :
  In i (range lo hi) <-> (lo <= i < hi)%nat.
Proof. unfold range. rewrite in_seq. lia. Qed.

Lemma range_length (lo hi : nat) :
  List.length (range lo hi) = (hi - lo)%nat.
Proof. unfold range. apply length_seq. Qed.

Lemma range_nth (lo hi k : nat) :
  (k < hi - lo)%nat -> nth_error (range lo hi) k = Some (lo + k)%nat.
Proof.
  intro H. unfold range.
  rewrite (nth_error_nth' _ 0%nat) by (rewrite length_seq; exact H).
  now rewrite seq_nth.
Qed.

End Drawing.

(** ** What [_drawPolyline] issues *)

Section Polyline.

Variable g : t.

(** Fewer than two symbols: the background only. *)
Lemma _drawPolyline_short (seq : option (list Z)) :
  match seq with
  | None => True
  | Some l => (List.length l < 2)%nat
  end ->
  _drawPolyline g seq = Ok (calls g (background g)).
Proof.
  intro H. unfold _drawPolyline. cbv zeta.
  rewrite !call_calls, !calls_calls. cbn [app].
  destruct seq as [l |]; [| reflexivity].
  apply Nat.ltb_lt in H. now rewrite H.
Qed.

(** Two symbols or more: background, pen, the start point, one midpoint
    segment for each index from 1 to length - 3, and the closing
    segment. *)
Lemma _drawPolyline_long (l : list Z) :
  (2 <= List.length l)%nat ->
  exists p0 c e segs,
    nth_error (mapped_points g l) 0 = Some p0
    /\ nth_error (mapped_points g l) (List.length l - 2) = Some c
    /\ nth_error (mapped_points g l) (List.length l - 1) = Some e
    /\ Forall2
         (fun i s =>
            exists p q, nth_error (mapped_points g l) i = Some p
                        /\ nth_error (mapped_points g l) (i + 1) = Some q
                        /\ s = segment p q)
         (range 1 (List.length l - 2)) segs
    /\ _drawPolyline g (Some l)
       = Ok (calls g (background g ++ pen g ++ [moveTo (x p0) (y p0)]
                      ++ segs ++ [closing c e; stroke; restore])).
Proof.
  intro Hlen.
  assert (Hn : List.length (mapped_points g l) = List.length l)
    by apply _drawPolyline_pts_length.
  destruct (nth_error_lt (mapped_points g l) 0 ltac:(lia)) as (p0 & H0).
  destruct (nth_error_lt (mapped_points g l) (List.length l - 2)
              ltac:(lia)) as (c & Hc).
  destruct (nth_error_lt (mapped_points g l) (List.length l - 1)
              ltac:(lia)) as (e & He).
  set (G := calls g (background g ++ pen g ++ [moveTo (x p0) (y p0)])).
  destruct (_drawPolyline_curve_ok (mapped_points g l)
              (range 1 (List.length l - 2))
              ltac:(intros i Hi; apply range_In in Hi; lia) G)
    as (segs & Hrun & Hall).
  exists p0, c, e, segs. repeat split; try assumption.
  unfold _drawPolyline. cbv zeta.
  apply Nat.ltb_ge in Hlen. rewrite Hlen.
  rewrite !call_calls, !calls_calls. cbn [app].
  rewrite (_drawPolyline_pts_reads _ g) by reflexivity.
  change (_drawPolyline_pts g _ _ 0 l) with (mapped_points g l).
  rewrite Hn, (at_index_Some _ _ _ H0). cbn [Js.bind].
  rewrite !call_calls, !calls_calls. cbn [app].
  subst G. unfold background, pen in Hrun. cbn [app] in Hrun.
  rewrite Hrun. cbn [Js.bind].
  rewrite (at_index_Some _ _ _ Hc), (at_index_Some _ _ _ He).
  cbn [Js.bind].
  rewrite !call_calls, !calls_calls. reflexivity.
Qed.

Lemma _drawPolyline_total (seq : option (list Z)) :
  exists cs, _drawPolyline g seq = Ok (calls g (background g ++ cs)).
Proof.
  destruct seq as [l |].
  - destruct (le_lt_dec 2 (List.length l)) as [H | H].
    + destruct (_drawPolyline_long l H) as (p0 & c & e & segs & Hr).
      destruct Hr as (_ & _ & _ & _ & ->). eexists. reflexivity.
    + exists []. rewrite app_nil_r. now apply _drawPolyline_short.
  - exists []. rewrite app_nil_r. now apply _drawPolyline_short.
Qed.

End Polyline.

(** ** Grid decoding *)

Section GridDecoding.

(** C4, as stated, fails: the source reduces [index - 1] to a signed
    32-bit integer before dividing, so for the index 2^31 + 1 on the
    default 4x4 grid the decoded pair is not the one obtained from
    [z = index - 1]. *)
Lemma rc_beyond_int32_counterexample :
  let index := 2147483649%Z in
  _rc default_generator index
  <> {| row := ((index - 1) / N (options default_generator))%Z;
        col := ((index - 1) mod N (options default_generator))%Z |}.
Proof. vm_compute. discriminate. Qed.

(** C4, amended: for every integer symbol index with
    [-2^53 < index <= 2^53], so that [index] and [index - 1] are doubles,
    and every grid size [0 < N <= 2^53], decoding computes
    [z = ToInt32 (index - 1)], which is [index - 1] whenever that fits a
    signed 32-bit integer, then [row = floor (z / N)] and [col = z % N],
    the remainder that takes the sign of [z]: it is [z mod N] for
    [z >= 0] and lies in [(-N, 0]] for [z < 0].  Decoding is a total
    function: no index is rejected. *)
Theorem rc_decoding (g : t) (index : Z) :
  (0 < N (options g) <= 2 ^ 53)%Z ->
  (- 2 ^ 53 < index <= 2 ^ 53)%Z ->
  let z := ToInt32 (index - 1) in
  _rc g index
  = {| row := (z / N (options g))%Z; col := Z.rem z (N (options g)) |}
  /\ ((- 2 ^ 31 <= index - 1 < 2 ^ 31)%Z -> z = (index - 1)%Z)
  /\ ((0 <= z)%Z -> col (_rc g index) = (z mod N (options g))%Z)
  /\ ((z < 0)%Z -> (- N (options g) < col (_rc g index) <= 0)%Z).
Proof.
  intros HN _ z. rewrite _rc_unfold. fold z. cbn [col].
  split; [reflexivity | split; [| split]].
  - intro R. now apply ToInt32_small.
  - intro Hz. apply Z.rem_mod_nonneg; lia.
  - intro Hz.
    apply (Z.rem_bound_pos_neg z (N (options g))); lia.
Qed.

Lemma rc_decoding_witness :
  (0 < N (options default_generator) <= 2 ^ 53)%Z
  /\ _rc default_generator 0 = {| row := -1; col := -1 |}.
Proof.
  assert (HN : (0 < N (options default_generator) <= 2 ^ 53)%Z)
    by (split; [reflexivity | discriminate]).
  split; [exact HN |].
  destruct (rc_decoding default_generator 0 HN) as (E & _);
    [split; [reflexivity | discriminate] |].
  rewrite E. reflexivity.
Defined.

End GridDecoding.

(** ** The two models compared *)

Section ModelsCompared.

(** On grid sizes and indices around the powers of two, inside the
    bounds of [rc_decoding], the exact decoding is the one the doubles
    compute. *)
Lemma rc_models_agree_at_edges :
  forallb (fun n => forallb (rc_models_agree n) edge_indices) edge_sizes
  = true.
Proof. vm_compute. reflexivity. Qed.

(** Outside the bounds they part: at [2^53 + 2] and at [-2^53] the
    subtraction [n - 1] rounds. *)
Lemma rc_models_differ_beyond_2_53 :
  rc_models_agree 4 (2 ^ 53 + 2) = false
  /\ rc_models_agree 4 (- 2 ^ 53) = false.
Proof. split; vm_compute; reflexivity. Qed.

(** The width can differ by a pixel between the models: with [N = 9],
    [PAD = 1], [H_FIXED = 100], no margin and the sequence 2, 1 the exact
    value of [W] is the integer 25, and the doubles give 26. *)
Lemma width_models_differ_by_a_pixel :
  let o :=
    {| Double.N := 9; Double.PAD := 1; Double.shift := 1;
       Double.lineWidth := 2; Double.lineColor := "#00e5ff";
       Double.H_FIXED := 100; Double.PIXEL_MARGIN := 0 |} in
  let seq := Some [2; 1]%float in
  Double.chosen_width o seq = 26%float
  /\ chosen_width (exact_generator o) (exact_seq seq) = 25.
Proof. cbv zeta. split; vm_compute; reflexivity. Qed.

End ModelsCompared.

(** ** The span *)

Section SpanSpec.



End SpanSpec.

(** ** Sizing *)

Section Sizing.

Lemma SFmul_comm (prec emax : Z) (x y : spec_float) :
  SFmul prec emax x y = SFmul prec emax y x.
Proof.
  destruct x as [sx | sx | | sx mx ex], y as [sy | sy | | sy my ey];
    simpl; try reflexivity;
    rewrite ?(xorb_comm sx sy); try reflexivity.
  now rewrite (Pos.mul_comm mx my), (Z.add_comm ex ey).
Qed.

(** Multiplication of doubles commutes. *)
Lemma double_mul_comm (a b : float) : (a * b)%float = (b * a)%float.
Proof.
  apply Prim2SF_inj. rewrite !mul_spec. apply SFmul_comm.
Qed.

(** C6: for every sequence and configuration the sizing step, computed
    in doubles as the source does, sets [height = H_FIXED] and
    [width = ceil (2 * margin + step * symSpanX)] with
    [step = (height - 2 * margin) / (N + 2 * PAD)] and
    [symSpanX = max (epsilon, (span.max - span.min) + 2 * PAD)], epsilon
    being the double [1e-6] and [span] the result of [_spanX]. *)
Theorem chooseCanvasSize_formula (o : Double.Options)
    (seq : option (list float)) :
  Double._chooseCanvasSize o seq
  = Double.computeSize (Double._spanX o seq) o.
Proof.
  unfold Double._chooseCanvasSize, Double.computeSize.
  now rewrite (double_mul_comm (Double.PAD o) 2).
Qed.

Lemma render_prepared (global : Global) (g : t) (seq : option (list Z)) :
  render global g seq = _drawPolyline (prepared global g seq) seq.
Proof. reflexivity. Qed.

(** C8: whatever the configuration and the sequence, [render] completes
    and leaves the logical height, in the render state and in the
    canvas style, equal to the configured [H_FIXED]. *)
Theorem render_height_fixed (global : Global) (g : t)
    (seq : option (list Z)) :
  exists g',
    render global g seq = Ok g'
    /\ State.height (state g') = H_FIXED (options g)
    /\ Canvas.style_height (canvas g') = Some (px (H_FIXED (options g)))
    /\ options g' = options g.
Proof.
  rewrite render_prepared.
  destruct (_drawPolyline_total (prepared global g seq) seq) as (cs & ->).
  eexists. split; [reflexivity |]. repeat split.
Qed.

End Sizing.

(** ** Concrete scenarios on the default configuration *)

Section Scenarios.

(** C7: with the default configuration ([N = 4], [PAD = 2],
    [shift = 1], margin 24, height 256) the scale [step] is 26;
    rendering [[1]] computes the logical width 152, and rendering the
    empty sequence computes 152 as well and draws no path. *)
Theorem default_width_152 (global : Global) :
  options default_generator = defaults
  /\ step_of defaults (H_FIXED defaults) == 26
  /\ (exists g1,
        render global default_generator (Some [1%Z]) = Ok g1
        /\ State.width (state g1) = 152
        /\ path_calls (ctx g1) = [])
  /\ (exists g2,
        render global default_generator (Some []) = Ok g2
        /\ State.width (state g2) = 152
        /\ path_calls (ctx g2) = []).
Proof.
  split; [reflexivity | split; [reflexivity | split]].
  - eexists. split; [vm_compute; reflexivity |]. split; reflexivity.
  - eexists. split; [vm_compute; reflexivity |]. split; reflexivity.
Qed.

(** C3, as stated, fails: for [[1, 1]] the control point of the single
    quadratic segment is not the second mapped point. *)
Lemma two_point_control_counterexample :
  exists g' p0 p1 cpx cpy ex ey,
    mapped_points (prepared no_ratio default_generator (Some [1; 1]%Z))
      [1; 1]%Z = [p0; p1]
    /\ render no_ratio default_generator (Some [1; 1]%Z) = Ok g'
    /\ path_calls (ctx g')
       = [beginPath; moveTo (x p0) (y p0);
          quadraticCurveTo cpx cpy ex ey; stroke]
    /\ ~ (cpx == x p1 /\ cpy == y p1).
Proof.
  do 7 eexists.
  split; [vm_compute; reflexivity |].
  split; [vm_compute; reflexivity |].
  split; [vm_compute; reflexivity |].
  intros [H _]. vm_compute in H. discriminate H.
Qed.

(** C3, amended: for [[1, 1]] with [N = 4] and the default
    configuration both symbols decode to row 0, column 0; their
    positions in grid units are 0.75 and 1.0 and the span is
    [{0.75, 1.0}]; rendering completes without error and draws the
    2-point path as one quadratic segment whose control point is the
    first mapped point, where the path starts, and whose endpoint is the
    second mapped point. *)
Theorem two_point_path (global : Global) :
  let g := default_generator in
  let seq := [1; 1]%Z in
  N (options g) = 4%Z
  /\ _rc g 1 = {| row := 0; col := 0 |}
  /\ Forall2 Qeq (xSyms g 0 seq) [3 # 4; 1]
  /\ min (_spanX g (Some seq)) == 3 # 4
  /\ max (_spanX g (Some seq)) == 1
  /\ exists g' p0 p1,
       mapped_points (prepared global g (Some seq)) seq = [p0; p1]
       /\ render global g (Some seq) = Ok g'
       /\ path_calls (ctx g')
          = [beginPath; moveTo (x p0) (y p0);
             quadraticCurveTo (x p0) (y p0) (x p1) (y p1); stroke].
Proof.
  cbv zeta. repeat (split; [reflexivity |]).
  split; [repeat constructor |].
  repeat (split; [reflexivity |]).
  do 3 eexists.
  split; [vm_compute; reflexivity |].
  split; vm_compute; reflexivity.
Qed.

(** C2, as stated, fails: for [[1, 1, 1]] the pair [(p_0, p_1)] is not
    the last pair, yet the rendered path holds no quadratic segment
    with control point [p_0] and endpoint the midpoint of [p_0] and
    [p_1]. *)
Lemma first_pair_segment_counterexample :
  exists g' p0 p1 p2,
    mapped_points
      (prepared no_ratio default_generator (Some [1; 1; 1]%Z))
      [1; 1; 1]%Z = [p0; p1; p2]
    /\ render no_ratio default_generator (Some [1; 1; 1]%Z) = Ok g'
    /\ existsb (Cmd_eqb (segment p0 p1)) (ctx g') = false.
Proof.
  do 4 eexists.
  split; [vm_compute; reflexivity |].
  split; vm_compute; reflexivity.
Qed.

End Scenarios.

(** ** The smoothed path *)

Section SmoothedPath.

Lemma Forall2_nth_error {A B} (R : A -> B -> Prop) (l1 : list A)
    (l2 : list B) :
  Forall2 R l1 l2 ->
  List.length l1 = List.length l2
  /\ forall k a, nth_error l1 k = Some a ->
                 exists b, nth_error l2 k = Some b /\ R a b.
Proof.
  induction 1 as [| a b l1 l2 Hab Hall [IHlen IHnth]].
  - split; [reflexivity |]. intros [| k] a H; discriminate.
  - split; [simpl; now rewrite IHlen |].
    intros [| k] a' H; simpl in *.
    + injection H as <-. now exists b.
    + now apply IHnth.
Qed.

(** C2, amended: for every sequence of [n >= 2] symbols, drawing
    completes; the path starts at mapped point 0; for every [i] with
    [1 <= i <= n - 3], that is for every consecutive pair except the
    first and the last, it holds in order a quadratic segment whose
    control point is [p_i] and whose endpoint is the midpoint of [p_i]
    and [p_(i+1)], and nothing else before the final segment; the final
    segment has the second-to-last point as control point and the last
    point as endpoint, so the path ends at the last mapped point. *)
Theorem smoothed_path (g : t) (l : list Z) :
  (2 <= List.length l)%nat ->
  let pts := mapped_points g l in
  let n := List.length l in
  exists p0 c e segs g',
    List.length pts = n
    /\ nth_error pts 0 = Some p0
    /\ nth_error pts (n - 2) = Some c
    /\ nth_error pts (n - 1) = Some e
    /\ _drawPolyline g (Some l) = Ok g'
    /\ ctx g'
       = ctx g ++ background g ++ pen g ++ [moveTo (x p0) (y p0)]
         ++ segs
         ++ [quadraticCurveTo (x c) (y c) (x e) (y e); stroke; restore]
    /\ List.length segs = (n - 3)%nat
    /\ forall i,
         (1 <= i)%nat -> (i + 3 <= n)%nat ->
         exists p q,
           nth_error pts i = Some p
           /\ nth_error pts (i + 1) = Some q
           /\ nth_error segs (i - 1)
              = Some (quadraticCurveTo (x p) (y p)
                        ((x p + x q) / 2) ((y p + y q) / 2)).
Proof.
  intros Hlen pts n.
  destruct (_drawPolyline_long g l Hlen)
    as (p0 & c & e & segs & H0 & Hc & He & Hall & Hrun).
  apply Forall2_nth_error in Hall. destruct Hall as (Hl & Hnth).
  rewrite range_length in Hl.
  exists p0, c, e, segs. eexists.
  split; [apply _drawPolyline_pts_length |].
  repeat (split; [eassumption |]).
  split; [reflexivity |].
  split; [fold n in Hl; lia |].
  intros i Hi1 Hi3.
  destruct (Hnth (i - 1)%nat i) as (s & Hs & p & q & Hp & Hq & ->).
  { rewrite range_nth by (fold n; lia). f_equal. lia. }
  exists p, q. repeat split; assumption.
Qed.

Lemma smoothed_path_witness :
  (2 <= List.length [1; 6; 11; 16; 2]%Z)%nat
  /\ exists g',
       _drawPolyline default_generator (Some [1; 6; 11; 16; 2]%Z) = Ok g'
       /\ List.length (path_calls (ctx g')) = 6%nat.
Proof.
  split; [simpl; lia |].
  destruct (smoothed_path default_generator [1; 6; 11; 16; 2]%Z)
    as (p0 & c & e & segs & g' & _ & _ & _ & _ & Hrun & _);
    [simpl; lia |].
  exists g'. split; [exact Hrun |].
  vm_compute in Hrun. injection Hrun as <-. reflexivity.
Defined.

End SmoothedPath.

(** ** The leftmost mapped point *)

Section Leftmost.





End Leftmost.

(** ** Width against PAD *)

Section WidthAndPAD.





(** Rounding alone can lower the width: with [H_FIXED = 480] and the
    sequence 1, 1, 1, 1, 4, whose extent is exactly [N], the exact width
    is 480 at every [PAD], and the doubles give 481 at [PAD = 11] and 480
    at [PAD = 12]. *)
Lemma rounding_lowers_width :
  let o :=
    {| Double.N := 4; Double.PAD := 11; Double.shift := 1;
       Double.lineWidth := 2; Double.lineColor := "#00e5ff";
       Double.H_FIXED := 480; Double.PIXEL_MARGIN := 24 |} in
  let seq := Some [1; 1; 1; 1; 4]%float in
  Double.chosen_width (Double.with_PAD o 11) seq = 481%float
  /\ Double.chosen_width (Double.with_PAD o 12) seq = 480%float
  /\ chosen_width (setOptions (exact_generator o) (only_PAD 11))
       (exact_seq seq) = 480
  /\ chosen_width (setOptions (exact_generator o) (only_PAD 12))
       (exact_seq seq) = 480.
Proof. cbv zeta. repeat split; vm_compute; reflexivity. Qed.

(** The doubles agree with the exact widths on the sequence 1, 2, ...,
    20: 354 at [PAD = 2] and 305 at [PAD = 6]. *)
Lemma width_shrinks_with_PAD_in_doubles :
  let seq := Some (map Double.of_Z one_to_twenty) in
  Double.chosen_width (Double.with_PAD Double.defaults 2) seq = 354%float
  /\ Double.chosen_width (Double.with_PAD Double.defaults 6) seq
     = 305%float.
Proof. cbv zeta. split; vm_compute; reflexivity. Qed.



End WidthAndPAD.

(** ** The device scale factor *)

Section DeviceScale.

(** C10, as stated, fails: with [H_FIXED = 255.5] and no reported
    ratio, the scale factor is 1 and the backing-store height is
    [floor 255.5 = 255], smaller than the logical height 255.5. *)
Lemma backing_store_height_counterexample :
  let g :=
    generator
      {| N' := None; PAD' := None; shift' := None; lineWidth' := None;
         lineColor' := None; H_FIXED' := Some (511 # 2);
         PIXEL_MARGIN' := None |} in
  exists g',
    render no_ratio g (Some [1; 1]%Z) = Ok g'
    /\ dpr g' = 1
    /\ Canvas.style_height (canvas g') = Some (px (511 # 2))
    /\ Canvas.height (canvas g') = 255%Z
    /\ inject_Z (Canvas.height (canvas g')) < State.height (state g').
Proof.
  cbv zeta. eexists.
  split; [vm_compute; reflexivity |].
  repeat split; reflexivity.
Qed.

Lemma floor_scaled (d s : Q) :
  0 <= d -> 1 <= s -> (Qfloor d <= Qfloor (d * s))%Z.
Proof.
  intros Hd Hs. apply Qfloor_resp_le.
  assert (H : 0 <= d * (s - 1)) by (apply Qmult_le_0_compat; lra).
  setoid_replace (d * s) with (d + d * (s - 1)) by ring. lra.
Qed.

(** C10, amended: the device scale factor is always at least 1: at
    construction and again in every render it is recomputed as
    [max (1, ratio)], where [ratio] is the host-reported value, or 1
    when the host reports nothing (or 0); a ratio below 1 is clamped to
    1.  The backing store is [floor (width * dpr)] by
    [floor (height * dpr)]: for a non-negative logical width it is never
    smaller than the logical width, which is an integer, and for a
    non-negative logical height it is never smaller than the logical
    height rounded down, hence than the logical height itself when
    [H_FIXED] is an integer. *)
Theorem device_scale_at_least_one (global : Global) (c : Canvas.t)
    (opts : PartialOptions) (g : t) (seq : option (list Z)) :
  let ratio := or_default (devicePixelRatio global) 1 in
  (devicePixelRatio global = None -> ratio = 1)
  /\ 1 <= Qmax 1 ratio
  /\ (ratio <= 1 -> Qmax 1 ratio == 1)
  /\ (exists g0,
        constructor global (Some c) opts = Ok g0
        /\ dpr g0 = Qmax 1 ratio)
  /\ exists g',
       render global g seq = Ok g'
       /\ dpr g' = Qmax 1 ratio
       /\ Canvas.width (canvas g')
          = Qfloor (State.width (state g') * dpr g')
       /\ Canvas.height (canvas g')
          = Qfloor (State.height (state g') * dpr g')
       /\ (0 <= State.width (state g') ->
           State.width (state g') <= inject_Z (Canvas.width (canvas g')))
       /\ (0 <= State.height (state g') ->
           (Qfloor (State.height (state g'))
            <= Canvas.height (canvas g'))%Z)
       /\ forall h : Z,
            (0 <= h)%Z -> H_FIXED (options g) = inject_Z h ->
            State.height (state g')
            <= inject_Z (Canvas.height (canvas g')).
Proof.
  intro ratio.
  assert (Hone : 1 <= Qmax 1 ratio) by apply Q.le_max_l.
  split; [intro E; unfold ratio; now rewrite E |].
  split; [exact Hone |].
  split; [intro H; now apply Q.max_l |].
  split; [eexists; split; reflexivity |].
  rewrite render_prepared.
  destruct (_drawPolyline_total (prepared global g seq) seq) as (cs & ->).
  eexists. split; [reflexivity |].
  cbn [dpr canvas state calls prepared _setupCanvas call set_canvas
       _syncDPR set_dpr Canvas.width Canvas.height].
  fold ratio.
  split; [reflexivity |]. split; [reflexivity |]. split; [reflexivity |].
  unfold _chooseCanvasSize. cbn [state set_state State.width State.height].
  split; [| split].
  - intro Hw. rewrite <- (Qfloor_Z (Qceiling _)) at 1.
    rewrite <- Zle_Qle. now apply floor_scaled.
  - intro Hh. now apply floor_scaled.
  - intros h Hh E. rewrite E. rewrite <- Zle_Qle.
    rewrite <- (Qfloor_Z h) at 1. apply floor_scaled; [| exact Hone].
    change 0 with (inject_Z 0). now rewrite <- Zle_Qle.
Qed.

Lemma device_scale_at_least_one_witness :
  exists g',
    render {| devicePixelRatio := Some (1 # 2) |} default_generator
      (Some [1; 1]%Z) = Ok g'
    /\ dpr g' == 1
    /\ State.height (state g') <= inject_Z (Canvas.height (canvas g')).
Proof.
  destruct (device_scale_at_least_one
              {| devicePixelRatio := Some (1 # 2) |} blank_canvas
              no_options default_generator (Some [1; 1]%Z))
    as (_ & _ & Hclamp & _ & g' & Hrun & Hdpr & _ & _ & _ & _ & Hheight).
  exists g'. split; [exact Hrun |]. split.
  - rewrite Hdpr. apply Hclamp. discriminate.
  - apply (Hheight 256%Z); [discriminate | reflexivity].
Defined.

End DeviceScale.

(** ** Further properties of the helpers *)

Section Helpers.

(** X1: [_clamp (v, a, b)] with [a <= b] lands in [[a, b]], and leaves
    alone a value already inside. *)
Theorem clamp_within (v a b : Q) :
  a <= b ->
  a <= _clamp v a b <= b
  /\ (a <= v <= b -> _clamp v a b == v).
Proof.
  intro Hab. unfold _clamp.
  pose proof (Q.le_max_r v a) as Hmax.
  split; [split |].
  - apply Q.min_glb; assumption.
  - apply Q.le_min_r.
  - intros [Hav Hvb].
    rewrite (Q.max_l v a Hav). now apply Q.min_l.
Qed.

Lemma clamp_within_witness :
  0 <= _clamp 7 0 5 <= 5 /\ _clamp 3 0 5 == 3.
Proof.
  split.
  - apply (clamp_within 7 0 5). discriminate.
  - apply (clamp_within 3 0 5); [| split]; discriminate.
Defined.

(** X2: on an [N] by [N] grid whose cell count fits 32 bits, a symbol in
    [1 .. N * N] decodes to a cell inside the grid, and the cell numbers
    it back in row-major order: [row * N + col + 1] is the symbol. *)
Theorem rc_row_major (g : t) (n : Z) :
  (0 < N (options g))%Z ->
  (N (options g) * N (options g) <= 2 ^ 31)%Z ->
  (1 <= n <= N (options g) * N (options g))%Z ->
  (0 <= row (_rc g n) < N (options g))%Z
  /\ (0 <= col (_rc g n) < N (options g))%Z
  /\ (row (_rc g n) * N (options g) + col (_rc g n) + 1 = n)%Z.
Proof.
  intros HN Hfit Hn. rewrite _rc_unfold. cbn [row col].
  rewrite ToInt32_small by lia.
  rewrite Z.rem_mod_nonneg by lia.
  pose proof (Z.mod_pos_bound (n - 1) (N (options g)) HN) as Hc.
  pose proof (Z.div_mod (n - 1) (N (options g)) ltac:(lia)) as Hdm.
  split; [split |].
  - apply Z.div_pos; lia.
  - apply Z.div_lt_upper_bound; lia.
  - split; [exact Hc | lia].
Qed.

Lemma rc_row_major_witness :
  (row (_rc default_generator 7) * 4 + col (_rc default_generator 7) + 1
   = 7)%Z.
Proof.
  destruct (rc_row_major default_generator 7) as (_ & _ & E);
    [reflexivity | discriminate | split; discriminate |].
  exact E.
Defined.

(** X3: conversely every cell of the grid is the decoding of its
    row-major number: [_rc (r * N + c + 1)] is [(r, c)]. *)
Theorem rc_of_cell (g : t) (r c : Z) :
  (N (options g) * N (options g) <= 2 ^ 31)%Z ->
  (0 <= r < N (options g))%Z ->
  (0 <= c < N (options g))%Z ->
  _rc g (r * N (options g) + c + 1) = {| row := r; col := c |}.
Proof.
  intros Hfit Hr Hc. rewrite _rc_unfold.
  replace (r * N (options g) + c + 1 - 1)%Z
    with (c + r * N (options g))%Z by ring.
  assert (Hz : (0 <= c + r * N (options g)
                < N (options g) * N (options g))%Z) by nia.
  rewrite ToInt32_small by lia.
  rewrite Z.rem_mod_nonneg by lia.
  rewrite Z.div_add by lia. rewrite Z.mod_add by lia.
  rewrite Z.div_small, Z.mod_small by lia.
  reflexivity.
Qed.

Lemma rc_of_cell_witness :
  _rc default_generator (2 * 4 + 3 + 1) = {| row := 2; col := 3 |}.
Proof.
  apply (rc_of_cell default_generator 2 3);
    [discriminate | split | split]; first [discriminate | reflexivity].
Defined.

(** X4: indices that differ by 2^32 decode to the same cell: the 32-bit
    truncation makes decoding periodic.  Both indices are taken in
    [(-2^53, 2^53]], where [n - 1] is exact in doubles, and the grid size
    in [(0, 2^53]]. *)
Theorem rc_period (g : t) (n : Z) :
  (0 < N (options g) <= 2 ^ 53)%Z ->
  (- 2 ^ 53 < n)%Z ->
  (n + 2 ^ 32 <= 2 ^ 53)%Z ->
  _rc g (n + 2 ^ 32) = _rc g n.
Proof.
  intros _ _ _. rewrite !_rc_unfold.
  replace (n + 2 ^ 32 - 1)%Z with (n - 1 + 1 * 2 ^ 32)%Z by ring.
  unfold ToInt32. now rewrite Z_mod_plus_full.
Qed.

Lemma rc_period_witness :
  _rc default_generator (7 + 2 ^ 32) = _rc default_generator 7.
Proof.
  apply (rc_period default_generator 7);
    [split; [reflexivity | discriminate] | reflexivity | discriminate].
Defined.

End Helpers.

(** ** Configuration *)

Section Configuration.

Lemma assign_field_twice {A} (a : A) (s : option A) :
  assign_field (assign_field a s) s = assign_field a s.
Proof. now destruct s. Qed.

(** X5: [setOptions] changes the options only; applying the same partial
    options twice is the same as applying them once, and applying the
    empty object changes nothing. *)
Theorem setOptions_idempotent (g : t) (opts : PartialOptions) :
  setOptions (setOptions g opts) opts = setOptions g opts
  /\ setOptions g no_options = g
  /\ canvas (setOptions g opts) = canvas g
  /\ ctx (setOptions g opts) = ctx g
  /\ state (setOptions g opts) = state g
  /\ dpr (setOptions g opts) = dpr g.
Proof.
  split; [| split; [| repeat split]].
  - unfold setOptions, set_options, Object_assign.
    cbn [canvas ctx options state dpr N PAD shift lineWidth lineColor
         H_FIXED PIXEL_MARGIN].
    now rewrite !assign_field_twice.
  - destruct g as [c x [n p s w k h m] st d]. reflexivity.
Qed.

(** X6: the constructor throws exactly when no canvas is given; otherwise
    it yields a generator on that canvas with nothing drawn yet, whose
    options are the defaults overridden by the given fields, whose render
    state is 256 wide and [H_FIXED] high, and whose scale factor is at
    least 1. *)
Theorem constructor_outcome (global : Global) (c : option Canvas.t)
    (opts : PartialOptions) :
  match c with
  | None => constructor global c opts = Throw "canvas is required"
  | Some cv =>
      exists g,
        constructor global c opts = Ok g
        /\ canvas g = cv
        /\ ctx g = []
        /\ options g = Object_assign defaults opts
        /\ state g
           = State.mk 256 (assign_field 256 (H_FIXED' opts))
        /\ 1 <= dpr g
  end.
Proof.
  destruct c as [cv |]; [| reflexivity].
  eexists. split; [reflexivity |].
  repeat (split; [reflexivity |]).
  apply Q.le_max_l.
Qed.

End Configuration.

(** ** What a render depends on *)

Section RenderReads.

Lemma Forall2_functional {A B} (R : A -> B -> Prop) :
  (forall a b b', R a b -> R a b' -> b = b') ->
  forall l m m', Forall2 R l m -> Forall2 R l m' -> m = m'.
Proof.
  intros Hfun l m m' H. revert m'.
  induction H as [| a b l m Hab _ IH]; intros m' H'; inversion H'; subst.
  - reflexivity.
  - f_equal; [eapply Hfun; eassumption | now apply IH].
Qed.

Lemma mapped_points_reads (g1 g2 : t) (l : list Z) :
  options g1 = options g2 -> state g1 = state g2 ->
  mapped_points g1 l = mapped_points g2 l.
Proof.
  intros Ho Hs. unfold mapped_points.
  rewrite (_drawPolyline_pts_reads g1 g2) by exact Ho.
  rewrite (_spanX_reads g1 g2) by now rewrite Ho.
  now rewrite Ho, Hs.
Qed.

(** Two generators with the same options and render state are issued the
    same calls by [_drawPolyline]. *)
Lemma _drawPolyline_reads (g1 g2 : t) (seq : option (list Z)) :
  options g1 = options g2 -> state g1 = state g2 ->
  exists cs,
    _drawPolyline g1 seq = Ok (calls g1 cs)
    /\ _drawPolyline g2 seq = Ok (calls g2 cs).
Proof.
  intros Ho Hs.
  assert (Hbg : background g1 = background g2)
    by (unfold background; now rewrite Hs).
  assert (Hpen : pen g1 = pen g2) by (unfold pen; now rewrite Ho).
  assert (Hshort :
            match seq with
            | None => True
            | Some l => (List.length l < 2)%nat
            end ->
            exists cs,
              _drawPolyline g1 seq = Ok (calls g1 cs)
              /\ _drawPolyline g2 seq = Ok (calls g2 cs)).
  { intro H. exists (background g1). split.
    - now apply _drawPolyline_short.
    - rewrite Hbg. now apply _drawPolyline_short. }
  destruct seq as [l |]; [| now apply Hshort].
  destruct (le_lt_dec 2 (List.length l)) as [Hlen | Hlen];
    [| now apply Hshort].
  destruct (_drawPolyline_long g1 l Hlen)
    as (p0 & c & e & segs & H0 & Hc & He & Hall & Hrun).
  destruct (_drawPolyline_long g2 l Hlen)
    as (p0' & c' & e' & segs' & H0' & Hc' & He' & Hall' & Hrun').
  rewrite <- (mapped_points_reads g1 g2 l Ho Hs) in H0', Hc', He', Hall'.
  assert (p0' = p0) by congruence.
  assert (c' = c) by congruence.
  assert (e' = e) by congruence.
  assert (segs' = segs).
  { refine (Forall2_functional _ _ _ _ _ Hall' Hall).
    intros i s s' (p & q & Hp & Hq & ->) (p' & q' & Hp' & Hq' & ->).
    congruence. }
  subst. eexists. split; [exact Hrun |].
  rewrite Hrun', Hbg, Hpen. reflexivity.
Qed.

Lemma prepared_reads (global : Global) (g1 g2 : t)
    (seq : option (list Z)) :
  options g1 = options g2 ->
  options (prepared global g1 seq) = options (prepared global g2 seq)
  /\ state (prepared global g1 seq) = state (prepared global g2 seq)
  /\ canvas (prepared global g1 seq) = canvas (prepared global g2 seq)
  /\ dpr (prepared global g1 seq) = dpr (prepared global g2 seq).
Proof.
  intro Ho.
  assert (Hs : state (_chooseCanvasSize g1 seq)
               = state (_chooseCanvasSize g2 seq)).
  { unfold _chooseCanvasSize. cbn [state set_state].
    rewrite (_spanX_reads g1 g2) by now rewrite Ho. now rewrite Ho. }
  unfold prepared, _setupCanvas.
  cbn [options state canvas dpr call set_canvas _syncDPR set_dpr].
  rewrite Hs. repeat split. exact Ho.
Qed.

Lemma prepared_frame (global : Global) (g : t) (seq : option (list Z)) :
  options (prepared global g seq) = options g
  /\ ctx (prepared global g seq)
     = ctx g ++ [setTransform (dpr (prepared global g seq)) 0 0
                   (dpr (prepared global g seq)) 0 0].
Proof. split; reflexivity. Qed.

Lemma render_total (global : Global) (g : t) (seq : option (list Z)) :
  exists r, render global g seq = Ok r.
Proof.
  rewrite render_prepared.
  destruct (_drawPolyline_total (prepared global g seq) seq) as (cs & ->).
  eexists. reflexivity.
Qed.

(** X7: what [render] leaves behind depends on the options, the sequence
    and the host's ratio only, never on what the generator rendered
    before: two generators with equal options end with the same render
    state, canvas size and scale factor, and are issued the same calls. *)
Theorem render_forgets_history (global : Global) (g1 g2 : t)
    (seq : option (list Z)) :
  options g1 = options g2 ->
  exists r1 r2 cs,
    render global g1 seq = Ok r1
    /\ render global g2 seq = Ok r2
    /\ ctx r1 = ctx g1 ++ cs
    /\ ctx r2 = ctx g2 ++ cs
    /\ state r1 = state r2
    /\ canvas r1 = canvas r2
    /\ dpr r1 = dpr r2.
Proof.
  intro Ho.
  destruct (prepared_reads global g1 g2 seq Ho) as (Hpo & Hps & Hpc & Hpd).
  destruct (_drawPolyline_reads _ _ seq Hpo Hps) as (cs & Hr1 & Hr2).
  rewrite !render_prepared, Hr1, Hr2.
  do 2 eexists.
  exists (setTransform (dpr (prepared global g1 seq)) 0 0
            (dpr (prepared global g1 seq)) 0 0 :: cs).
  split; [reflexivity |]. split; [reflexivity |].
  cbn [ctx state canvas dpr calls].
  destruct (prepared_frame global g1 seq) as (_ & ->).
  destruct (prepared_frame global g2 seq) as (_ & ->).
  rewrite <- Hpd, <- !app_assoc. repeat split; assumption.
Qed.

Lemma render_forgets_history_witness :
  exists r1 r2,
    render no_ratio default_generator (Some [1; 6]%Z) = Ok r1
    /\ render no_ratio (set_state default_generator (State.mk 9 9))
         (Some [1; 6]%Z) = Ok r2
    /\ state r1 = state r2.
Proof.
  destruct (render_forgets_history no_ratio default_generator
              (set_state default_generator (State.mk 9 9))
              (Some [1; 6]%Z) eq_refl)
    as (r1 & r2 & cs & H1 & H2 & _ & _ & Hs & _).
  exists r1, r2. repeat split; assumption.
Defined.

Lemma ctx_calls (g : t) (cs : list Cmd) : ctx (calls g cs) = ctx g ++ cs.
Proof. reflexivity. Qed.

Lemma state_calls (g : t) (cs : list Cmd) : state (calls g cs) = state g.
Proof. reflexivity. Qed.

Lemma canvas_calls (g : t) (cs : list Cmd) : canvas (calls g cs) = canvas g.
Proof. reflexivity. Qed.

Lemma dpr_calls (g : t) (cs : list Cmd) : dpr (calls g cs) = dpr g.
Proof. reflexivity. Qed.

Lemma options_calls (g : t) (cs : list Cmd) :
  options (calls g cs) = options g.
Proof. reflexivity. Qed.

Lemma render_calls (global : Global) (g r : t) (seq : option (list Z)) :
  render global g seq = Ok r ->
  exists cs,
    r = calls (prepared global g seq) cs
    /\ _drawPolyline (prepared global g seq) seq
       = Ok (calls (prepared global g seq) cs).
Proof.
  intro Hrun. rewrite render_prepared in Hrun.
  destruct (_drawPolyline_total (prepared global g seq) seq) as (ds & Hd).
  rewrite Hd in Hrun. eexists. split; [| exact Hd]. congruence.
Qed.

Lemma prepared_again (global : Global) (g : t) (seq : option (list Z))
    (cs : list Cmd) :
  options (prepared global g seq)
  = options (prepared global (calls (prepared global g seq) cs) seq)
  /\ state (prepared global g seq)
     = state (prepared global (calls (prepared global g seq) cs) seq)
  /\ canvas (prepared global g seq)
     = canvas (prepared global (calls (prepared global g seq) cs) seq)
  /\ dpr (prepared global g seq)
     = dpr (prepared global (calls (prepared global g seq) cs) seq).
Proof. now apply prepared_reads. Qed.

(** Drawing again on the generator a render left behind issues the same
    calls. *)
Lemma _drawPolyline_again (global : Global) (g : t)
    (seq : option (list Z)) (cs : list Cmd) :
  _drawPolyline (prepared global g seq) seq
  = Ok (calls (prepared global g seq) cs) ->
  _drawPolyline (prepared global (calls (prepared global g seq) cs) seq) seq
  = Ok (calls (prepared global (calls (prepared global g seq) cs) seq) cs).
Proof.
  intro Hd.
  destruct (prepared_again global g seq cs) as (Hpo & Hps & _).
  destruct (_drawPolyline_reads _ _ seq Hpo Hps) as (ds & Hr1 & Hr2).
  rewrite Hd in Hr1.
  assert (Hc : ctx (calls (prepared global g seq) cs)
               = ctx (calls (prepared global g seq) ds)) by congruence.
  cbn [ctx calls] in Hc. apply app_inv_head in Hc. subst ds. exact Hr2.
Qed.

(** X8: rendering the same sequence twice in a row, with the options and
    the host's ratio unchanged, issues the same calls the second time and
    leaves the render state, the canvas size and the scale factor as the
    first render left them. *)
Theorem render_twice (global : Global) (g r1 : t)
    (seq : option (list Z)) :
  render global g seq = Ok r1 ->
  exists r2 cs,
    render global r1 seq = Ok r2
    /\ ctx r1 = ctx g ++ cs
    /\ ctx r2 = ctx r1 ++ cs
    /\ state r2 = state r1
    /\ canvas r2 = canvas r1
    /\ dpr r2 = dpr r1
    /\ options r2 = options r1.
Proof.
  intro Hrun.
  destruct (render_calls global g r1 seq Hrun) as (X & -> & Hd).
  destruct (prepared_again global g seq X) as (Hpo & Hps & Hpc & Hpd).
  exists (calls (prepared global (calls (prepared global g seq) X) seq) X).
  exists (setTransform (dpr (prepared global g seq)) 0 0
            (dpr (prepared global g seq)) 0 0 :: X).
  split; [rewrite render_prepared; now apply _drawPolyline_again |].
  rewrite !ctx_calls, !state_calls, !canvas_calls, !dpr_calls,
    !options_calls.
  rewrite (proj2 (prepared_frame global
                    (calls (prepared global g seq) X) seq)).
  rewrite (proj2 (prepared_frame global g seq)).
  rewrite <- Hpd, <- Hps, <- Hpc, <- Hpo, ctx_calls.
  rewrite (proj2 (prepared_frame global g seq)).
  rewrite <- !app_assoc.
  repeat (split; [reflexivity |]). reflexivity.
Qed.

Lemma render_twice_witness :
  exists r1 r2,
    render no_ratio default_generator (Some [1; 6; 11]%Z) = Ok r1
    /\ render no_ratio r1 (Some [1; 6; 11]%Z) = Ok r2
    /\ canvas r2 = canvas r1.
Proof.
  destruct (render_total no_ratio default_generator
              (Some [1; 6; 11]%Z)) as (r1 & H1).
  destruct (render_twice no_ratio default_generator r1
              (Some [1; 6; 11]%Z) H1) as (r2 & cs & H2 & _ & _ & _ & Hc & _).
  exists r1, r2. repeat split; assumption.
Defined.

End RenderReads.

(** ** Short sequences and the scale factor *)

Section RenderEdges.

(** X9: for an absent sequence or one of fewer than two symbols,
    [render] resizes the canvas and paints the background, and issues
    nothing else: the transform, [clearRect], the fill style and a
    [fillRect] over the whole logical area, and no path call. *)
Theorem render_short (global : Global) (g : t) (seq : option (list Z)) :
  match seq with
  | None => True
  | Some l => (List.length l < 2)%nat
  end ->
  exists r,
    render global g seq = Ok r
    /\ ctx r
       = ctx g
         ++ [setTransform (dpr r) 0 0 (dpr r) 0 0;
             clearRect 0 0 (State.width (state r)) (State.height (state r));
             set_fillStyle "#0b0f1a";
             fillRect 0 0 (State.width (state r)) (State.height (state r))]
    /\ path_calls (ctx r) = path_calls (ctx g).
Proof.
  intro Hshort. rewrite render_prepared.
  rewrite (_drawPolyline_short _ seq Hshort).
  eexists. split; [reflexivity |].
  rewrite ctx_calls, state_calls, dpr_calls.
  rewrite (proj2 (prepared_frame global g seq)).
  unfold background. rewrite <- app_assoc. split; [reflexivity |].
  unfold path_calls. rewrite filter_app. cbn [filter is_path_call app].
  apply app_nil_r.
Qed.

Lemma render_short_witness :
  exists r,
    render no_ratio default_generator (Some [5%Z]) = Ok r
    /\ path_calls (ctx r) = [].
Proof.
  destruct (render_short no_ratio default_generator (Some [5%Z]))
    as (r & Hrun & _ & Hpath); [simpl; lia |].
  exists r. split; assumption.
Defined.

(** X10: when the host reports an integer ratio [k >= 1], the scale
    factor is [k] and the backing store is exactly [k] times the logical
    width, and [k] times the logical height when [H_FIXED] is an
    integer. *)
Theorem integer_ratio_scales_exactly (k : Z) (g : t)
    (seq : option (list Z)) :
  (1 <= k)%Z ->
  exists r,
    render {| devicePixelRatio := Some (inject_Z k) |} g seq = Ok r
    /\ dpr r == inject_Z k
    /\ inject_Z (Canvas.width (canvas r))
       == State.width (state r) * inject_Z k
    /\ forall h : Z,
         H_FIXED (options g) = inject_Z h ->
         Canvas.height (canvas r) = (h * k)%Z.
Proof.
  intro Hk. rewrite render_prepared.
  destruct (_drawPolyline_total
              (prepared {| devicePixelRatio := Some (inject_Z k) |} g seq)
              seq) as (cs & ->).
  eexists. split; [reflexivity |].
  rewrite dpr_calls, canvas_calls, state_calls.
  assert (Hd : dpr (prepared {| devicePixelRatio := Some (inject_Z k) |}
                      g seq) == inject_Z k).
  { unfold prepared, _setupCanvas.
    cbn [dpr call set_canvas _syncDPR set_dpr devicePixelRatio or_default].
    destruct (Qeq_bool (inject_Z k) 0) eqn:E.
    - apply Qeq_bool_iff in E. unfold Qeq in E. simpl in E. lia.
    - apply Q.max_r. change 1 with (inject_Z 1).
      rewrite <- Zle_Qle. exact Hk. }
  split; [exact Hd |].
  unfold prepared, _setupCanvas in Hd |- *.
  cbn [canvas state dpr call set_canvas Canvas.width Canvas.height] in Hd |- *.
  split.
  - unfold _chooseCanvasSize.
    cbn [state set_state State.width State.height].
    rewrite Hd, <- inject_Z_mult, Qfloor_Z. reflexivity.
  - intros h Hh. unfold _chooseCanvasSize.
    cbn [state set_state State.width State.height].
    rewrite Hd, Hh, <- inject_Z_mult. apply Qfloor_Z.
Qed.

Lemma integer_ratio_scales_exactly_witness :
  exists r,
    render {| devicePixelRatio := Some (inject_Z 2) |} default_generator
      (Some [1; 6]%Z) = Ok r
    /\ Canvas.height (canvas r) = 512%Z.
Proof.
  destruct (integer_ratio_scales_exactly 2 default_generator
              (Some [1; 6]%Z)) as (r & Hrun & _ & _ & Hh); [lia |].
  exists r. split; [exact Hrun |]. exact (Hh 256%Z eq_refl).
Defined.

End RenderEdges.

(** ** What the span reads *)

Section ShiftPurpose.

(** X15: the span reads the grid size and the shift only: options that
    leave [N] and [shift] alone (padding, margin, height, stroke) do not
    change it. *)
Theorem spanX_reads_N_and_shift (g : t) (opts : PartialOptions)
    (seq : option (list Z)) :
  N' opts = None -> shift' opts = None ->
  _spanX (setOptions g opts) seq = _spanX g seq.
Proof.
  intros HN Hs. apply _spanX_reads; unfold setOptions; cbn;
    [rewrite HN | rewrite Hs]; reflexivity.
Qed.

Lemma spanX_reads_N_and_shift_witness :
  _spanX (setOptions default_generator (only_PAD 7)) (Some [1; 6]%Z)
  = _spanX default_generator (Some [1; 6]%Z).
Proof.
  apply (spanX_reads_N_and_shift default_generator (only_PAD 7));
    reflexivity.
Defined.

End ShiftPurpose.
